(** * Rocket's HTTP header collection ([lib/src/http/header.rs])

    [Header] is a name/value pair of (borrowed or owned) text; the
    ownership of a [Cow<str>] is not observable through the methods
    below, so both fields are modelled as [string].  [HeaderMap] wraps a
    [HashMap<Cow<str>, Vec<Cow<str>>>], modelled as a [gmap] from names to
    value lists.  Each [&mut self] method returns the updated map (and its
    Rust result, when it has one). *)

From stdpp Require Import base gmap strings list fin_maps.

Open Scope string_scope.

Record Header := mkHeader {
  name : string;
  value : string
}.

(** [Header::new]: both arguments are converted with [Into<Cow<str>>],
    no validation. *)
Definition Header_new (n v : string) : Header := {| name := n; value := v |}.

(** [impl Display for Header]: [write!(f, "{}: {}", self.name, self.value)]. *)
Definition Header_fmt (h : Header) : string := name h ++ ": " ++ value h.

(** The [headers] field of [HeaderMap]. *)
Abbreviation HeaderMap := (gmap string (list string)).

(** [HeaderMap::new]: [HashMap::new()]. *)
Definition HeaderMap_new : HeaderMap := ∅.

Module HeaderMap.

(** [self.headers.get(name).is_some()] *)
Definition contains (m : HeaderMap) (n : string) : bool :=
  match m !! n with Some _ => true | None => false end.

(** [self.headers.iter().flat_map(|(_, values)| values.iter()).count()];
    the count does not depend on the order of the [HashMap] iteration,
    so the order of [map_to_list] is used. *)
Definition len (m : HeaderMap) : nat :=
  length (concat (map snd (map_to_list m))).

(** [self.headers.is_empty()] *)
Definition is_empty (m : HeaderMap) : bool := bool_decide (m = ∅).

(** [self.headers.get(name).into_iter().flat_map(|values| values.iter() ...)] *)
Definition get (m : HeaderMap) (n : string) : list string :=
  match m !! n with Some vs => vs | None => [] end.

(** [self.headers.get(name).and_then(|values|
       if values.len() >= 1 { Some(values[0]) } else { None })] *)
Definition get_one (m : HeaderMap) (n : string) : option string :=
  match m !! n with
  | Some values => match values with v :: _ => Some v | [] => None end
  | None => None
  end.

(** [self.headers.insert(header.name, vec![header.value]).is_some()] *)
Definition replace (m : HeaderMap) (header : Header) : HeaderMap * bool :=
  (<[name header := [value header]]> m,
   match m !! name header with Some _ => true | None => false end).

(** [self.replace(Header::new(name, value))] *)
Definition replace_raw (m : HeaderMap) (n v : string) : HeaderMap * bool :=
  replace m (Header_new n v).

(** [self.headers.insert(name.into(), values);] *)
Definition replace_all (m : HeaderMap) (n : string) (values : list string)
  : HeaderMap :=
  <[n := values]> m.

(** [self.headers.entry(header.name).or_insert(vec![]).push(header.value)] *)
Definition add (m : HeaderMap) (header : Header) : HeaderMap :=
  let old := match m !! name header with Some vs => vs | None => [] end in
  <[name header := app old [value header]]> m.

(** [self.add(Header::new(name, value))] *)
Definition add_raw (m : HeaderMap) (n v : string) : HeaderMap :=
  add m (Header_new n v).

(** [self.headers.entry(name.into()).or_insert(vec![]).append(values)];
    [Vec::append] moves every element out of [values], so the second
    component is the caller's vector after the call. *)
Definition add_all (m : HeaderMap) (n : string) (values : list string)
  : HeaderMap * list string :=
  let old := match m !! n with Some vs => vs | None => [] end in
  (<[n := app old values]> m, []).

(** [self.headers.remove(name);] *)
Definition remove (m : HeaderMap) (n : string) : HeaderMap := delete n m.

(** [into_iter], given the sequence of [(name, values)] entries in which
    the [HashMap] yields them:
    [flat_map(|(name, value)| value.into_iter().map(|value| Header {..}))]. *)
Definition into_iter_entries (entries : list (string * list string))
  : list Header :=
  concat (map (fun e => map (fun v => {| name := e.1; value := v |}) e.2)
              entries).

Section Drain.

(** The order in which the [HashMap] of a map yields its entries is not
    specified: it is some enumeration of the map's bindings. *)
Variable iter_order : HeaderMap -> list (string * list string).
Hypothesis iter_order_perm : forall m, iter_order m ≡ₚ map_to_list m.

(** [HeaderMap::into_iter(self)] *)
Definition into_iter (m : HeaderMap) : list Header :=
  into_iter_entries (iter_order m).

(** [let old_map = mem::replace(self, HeaderMap::new());
     old_map.into_iter().collect()] *)
Definition remove_all (m : HeaderMap) : list Header * HeaderMap :=
  (into_iter m, HeaderMap_new).

End Drain.

End HeaderMap.

Import HeaderMap.

(** A run of [add_raw] calls with one name, in call order. *)
Definition add_raw_seq (m : HeaderMap) (n : string) (vs : list string)
  : HeaderMap :=
  fold_left (fun acc v => add_raw acc n v) vs m.

(** Reachability from [HeaderMap::new()] through the public mutators of
    the map.  [remove_all] leaves [HeaderMap::new()] behind. *)
Inductive reachable : HeaderMap -> Prop :=
| reach_new : reachable HeaderMap_new
| reach_add m h : reachable m -> reachable (add m h)
| reach_add_raw m n v : reachable m -> reachable (add_raw m n v)
| reach_add_all m n vs : reachable m -> reachable (add_all m n vs).1
| reach_replace m h : reachable m -> reachable (replace m h).1
| reach_replace_raw m n v : reachable m -> reachable (replace_raw m n v).1
| reach_replace_all m n vs : reachable m -> reachable (replace_all m n vs)
| reach_remove m n : reachable m -> reachable (remove m n)
| reach_remove_all m : reachable m -> reachable HeaderMap_new.

(** The same, with [add_all] and [replace_all] only given non-empty
    value vectors. *)
Inductive reachable_ne : HeaderMap -> Prop :=
| reachn_new : reachable_ne HeaderMap_new
| reachn_add m h : reachable_ne m -> reachable_ne (add m h)
| reachn_add_raw m n v : reachable_ne m -> reachable_ne (add_raw m n v)
| reachn_add_all m n vs :
    vs <> [] -> reachable_ne m -> reachable_ne (add_all m n vs).1
| reachn_replace m h : reachable_ne m -> reachable_ne (replace m h).1
| reachn_replace_raw m n v :
    reachable_ne m -> reachable_ne (replace_raw m n v).1
| reachn_replace_all m n vs :
    vs <> [] -> reachable_ne m -> reachable_ne (replace_all m n vs)
| reachn_remove m n : reachable_ne m -> reachable_ne (remove m n)
| reachn_remove_all m : reachable_ne m -> reachable_ne HeaderMap_new.

(** Values of the headers named [n] in a header sequence, in order. *)
Fixpoint values_named (n : string) (hs : list Header) : list string :=
  match hs with
  | [] => []
  | h :: t =>
      if bool_decide (name h = n) then value h :: values_named n t
      else values_named n t
  end.

(** ** Basic facts *)

Lemma concat_length_perm (l1 l2 : list (list string)) :
  l1 ≡ₚ l2 -> length (concat l1) = length (concat l2).
Proof.
  induction 1 as [| x l1 l2 _ IH | x y l | l1 l2 l3 _ IH1 _ IH2]; simpl;
    rewrite ?length_app in *; lia.
Qed.

Lemma len_delete (m : HeaderMap) (n : string) (vs : list string) :
  m !! n = Some vs -> len m = len (delete n m) + length vs.
Proof.
  intros Hn. unfold len.
  rewrite <- (concat_length_perm _ _
    (Permutation_map snd (map_to_list_delete m n vs Hn))).
  simpl. rewrite length_app. lia.
Qed.

Lemma len_delete_get (m : HeaderMap) (n : string) :
  len m = len (delete n m) + length (get m n).
Proof.
  unfold get. destruct (m !! n) as [vs|] eqn:Hn.
  - by apply len_delete.
  - rewrite delete_id by done. simpl. lia.
Qed.

Lemma len_empty : len HeaderMap_new = 0.
Proof. reflexivity. Qed.

Lemma get_add_raw_seq (m : HeaderMap) (n : string) (vs : list string) :
  get (add_raw_seq m n vs) n = app (get m n) vs.
Proof.
  unfold add_raw_seq. revert m. induction vs as [|v vs IH]; intros m; simpl.
  - by rewrite app_nil_r.
  - rewrite IH. unfold add_raw, add, get; simpl.
    rewrite lookup_insert_eq. by rewrite <- app_assoc.
Qed.

Example add_raw_two :
  let m := add_raw (add_raw HeaderMap_new "X-Custom" "value_1") "X-Custom" "value_2" in
  len m = 2 /\ get m "X-Custom" = ["value_1"; "value_2"] /\
  get_one m "X-Custom" = Some "value_1".
Proof. vm_compute. auto. Qed.

(** Selecting the entry of one name from an entry sequence. *)
Definition entry_values (n : string) (e : string * list string) : list string :=
  if bool_decide (e.1 = n) then e.2 else [].

Lemma values_named_app (n : string) (hs1 hs2 : list Header) :
  values_named n (app hs1 hs2) = app (values_named n hs1) (values_named n hs2).
Proof.
  induction hs1 as [|h hs1 IH]; simpl; [done|].
  case_bool_decide; rewrite IH; done.
Qed.

Lemma values_named_entries (n : string) (l : list (string * list string)) :
  values_named n (into_iter_entries l) = concat (map (entry_values n) l).
Proof.
  unfold into_iter_entries.
  induction l as [|[k vs] l IH]; simpl; [done|].
  rewrite values_named_app, IH. f_equal. unfold entry_values; simpl.
  case_bool_decide as Hk.
  - clear IH. induction vs as [|v vs IHv]; simpl; [done|].
    rewrite bool_decide_true by done. by rewrite IHv.
  - clear IH. induction vs as [|v vs IHv]; simpl; [done|].
    rewrite bool_decide_false by done. done.
Qed.

Lemma entries_select (n : string) (l : list (string * list string)) :
  NoDup l.*1 ->
  (forall vs, (n, vs) ∈ l -> concat (map (entry_values n) l) = vs) /\
  ((forall vs, (n, vs) ∉ l) -> concat (map (entry_values n) l) = []).
Proof.
  induction l as [|[k ws] l IH]; intros Hnd; simpl.
  - split; [intros vs Hin; by apply elem_of_nil in Hin | done].
  - apply NoDup_cons in Hnd as [Hk Hnd]. simpl in Hk.
    destruct (IH Hnd) as [IH1 IH2].
    change (entry_values n (k, ws)) with (if bool_decide (k = n) then ws else []).
    assert (Habs : forall vs, k = n -> (n, vs) ∉ l).
    { intros vs -> Hin. apply Hk. apply list_elem_of_fmap.
      exists (n, vs). done. }
    split.
    + intros vs Hin. apply elem_of_cons in Hin as [Heq | Hin].
      * injection Heq as -> ->. rewrite bool_decide_true by done.
        rewrite IH2 by (intros vs'; by apply Habs). by rewrite app_nil_r.
      * case_bool_decide as Hkn; [by destruct (Habs vs Hkn Hin)|].
        simpl. by apply IH1.
    + intros Hnone. case_bool_decide as Hkn.
      * subst k. destruct (Hnone ws). by apply elem_of_cons; left.
      * simpl. apply IH2. intros vs Hin. apply (Hnone vs).
        by apply elem_of_cons; right.
Qed.

(** Any enumeration of a map's bindings, regrouped by name, gives back
    the values stored under that name. *)
Lemma values_named_perm (m : HeaderMap) (l : list (string * list string))
    (n : string) :
  l ≡ₚ map_to_list m ->
  values_named n (into_iter_entries l) = get m n.
Proof.
  intros Hp. rewrite values_named_entries.
  assert (Hnd : NoDup l.*1).
  { rewrite Hp. apply NoDup_fst_map_to_list. }
  destruct (entries_select n l Hnd) as [H1 H2].
  unfold get. destruct (m !! n) as [vs|] eqn:Hn.
  - apply H1. rewrite Hp. by apply elem_of_map_to_list.
  - apply H2. intros vs Hin. rewrite Hp, elem_of_map_to_list in Hin.
    congruence.
Qed.

(** ** Claims *)

(** C2: after [replace(h)], [get(h.name)] is exactly [[h.value]] (one
    value), [get_one(h.name)] is [h.value], whatever was stored before,
    and the result is [true] iff the name was present before. *)
Theorem replace_overwrites (m : HeaderMap) (h : Header) :
  get (replace m h).1 (name h) = [value h] /\
  length (get (replace m h).1 (name h)) = 1 /\
  get_one (replace m h).1 (name h) = Some (value h) /\
  ((replace m h).2 = true <-> contains m (name h) = true).
Proof.
  unfold replace, get, get_one, contains; simpl.
  rewrite lookup_insert_eq. repeat split; done.
Qed.

(** C3: a run of [add_raw] calls with one name on a map holding no value
    for it makes [get] yield the added values in call order and
    [get_one] the first of them; the two-value round trip on a fresh
    map. *)
Theorem add_fifo (m : HeaderMap) (n : string) (vs : list string) :
  get m n = [] ->
  get (add_raw_seq m n vs) n = vs /\
  get_one (add_raw_seq m n vs) n = head vs /\
  (let m2 := add_raw (add_raw HeaderMap_new "X-Custom" "value_1")
                     "X-Custom" "value_2" in
   get m2 "X-Custom" = ["value_1"; "value_2"] /\
   get_one m2 "X-Custom" = Some "value_1").
Proof.
  intros Hm.
  assert (Hg : get (add_raw_seq m n vs) n = vs)
    by (rewrite get_add_raw_seq, Hm; done).
  split; [exact Hg|]. split; [|vm_compute; auto].
  revert Hg. unfold get, get_one.
  destruct (add_raw_seq m n vs !! n); intros <-; [|done].
  by destruct l.
Qed.

Lemma add_fifo_witness :
  get HeaderMap_new "X" = [] /\
  get (add_raw_seq HeaderMap_new "X" ["a"; "b"]) "X" = ["a"; "b"].
Proof.
  split; [reflexivity|].
  apply (add_fifo HeaderMap_new "X" ["a"; "b"]). reflexivity.
Defined.

(** C4: on an absent name, [replace] and [replace_raw] give the same map
    as [add] / [add_raw] and return [false]. *)
Theorem replace_absent_is_add (m : HeaderMap) (h : Header) (v : string) :
  contains m (name h) = false ->
  replace m h = (add m h, false) /\
  replace_raw m (name h) v = (add_raw m (name h) v, false).
Proof.
  unfold contains, replace_raw, replace, add_raw, add, Header_new; simpl.
  destruct (m !! name h); [discriminate|]. done.
Qed.

Lemma replace_absent_is_add_witness :
  contains HeaderMap_new "X" = false /\
  replace HeaderMap_new (Header_new "X" "a")
    = (add HeaderMap_new (Header_new "X" "a"), false).
Proof.
  split; [reflexivity|].
  apply (replace_absent_is_add HeaderMap_new (Header_new "X" "a") "b").
  reflexivity.
Defined.

(** C6: [len] is the total number of stored values: [0] on the empty map,
    and for any name its values count once each on top of the rest of the
    map; [add] adds one value; two [add_raw]s of one name give [2], two
    [replace_raw]s of one name give [1]. *)
Theorem len_counts_values :
  len HeaderMap_new = 0 /\
  (forall (m : HeaderMap) (n : string),
      len m = len (delete n m) + length (get m n)) /\
  (forall (m : HeaderMap) (h : Header), len (add m h) = S (len m)) /\
  len (add_raw (add_raw HeaderMap_new "X-Custom" "value_1")
               "X-Custom" "value_2") = 2 /\
  (let m := (replace_raw (replace_raw HeaderMap_new
               "Content-Type" "application/json").1
               "Content-Type" "image/gif").1 in
   len m = 1 /\ get_one m "Content-Type" = Some "image/gif").
Proof.
  split; [reflexivity|]. split; [exact len_delete_get|].
  split; [|vm_compute; auto].
  intros m h.
  rewrite (len_delete_get (add m h) (name h)), (len_delete_get m (name h)).
  unfold add, get at 1. rewrite delete_insert_eq, lookup_insert_eq.
  unfold get. rewrite length_app. simpl. lia.
Qed.

(** C7: [add_all] appends the given values after the stored ones, in
    order, and empties the caller's vector; the two-call scenario. *)
Theorem add_all_appends (m : HeaderMap) (n : string) (vs : list string) :
  get (add_all m n vs).1 n = app (get m n) vs /\
  (add_all m n vs).2 = [] /\
  (let r1 := add_all HeaderMap_new "X-Custom" ["value_1"; "value_2"] in
   let r2 := add_all r1.1 "X-Custom" ["value_3"; "value_4"] in
   get r2.1 "X-Custom" = ["value_1"; "value_2"; "value_3"; "value_4"] /\
   r2.2 = []).
Proof.
  split; [|split; [done | vm_compute; auto]].
  unfold add_all, get; simpl. by rewrite lookup_insert_eq.
Qed.

(** C8: after [remove(name)] the name is absent and [get] is empty, the
    other names keep their entries, and removing an absent name (once or
    twice) leaves the map unchanged. *)
Theorem remove_spec (m : HeaderMap) (n : string) :
  contains (remove m n) n = false /\
  get (remove m n) n = [] /\
  (forall n', n' <> n -> remove m n !! n' = m !! n') /\
  (contains m n = false -> remove m n = m /\ remove (remove m n) n = m).
Proof.
  unfold contains, get, remove. rewrite lookup_delete_eq.
  split; [done|]. split; [done|]. split.
  - intros n' Hne. by rewrite lookup_delete_ne.
  - destruct (m !! n) eqn:Hn; [discriminate|]. intros _.
    rewrite !delete_id by done. done.
Qed.

Lemma remove_spec_witness :
  contains HeaderMap_new "X" = false /\
  remove (remove HeaderMap_new "X") "X" = HeaderMap_new.
Proof.
  split; [reflexivity|].
  apply (remove_spec HeaderMap_new "X"). reflexivity.
Defined.

(** C9: [Header::new(n, v)] displays as [n], then [": "], then [v]. *)
Theorem display_header (n v : string) :
  Header_fmt (Header_new n v) = n ++ ": " ++ v /\
  Header_fmt (Header_new "X-Custom-Header" "custom value")
    = "X-Custom-Header: custom value".
Proof. split; reflexivity. Qed.

(** C10: a name mapped to an empty vector (what [replace_all] with an
    empty vector stores) is [contains]-present while [get_one] is [None],
    [get] is empty, [is_empty] is false and it adds nothing to [len]. *)
Theorem empty_entry_observable (m : HeaderMap) (n : string) :
  m !! n = Some [] ->
  get_one m n = None /\ get m n = [] /\ contains m n = true /\
  is_empty m = false /\ len m = len (delete n m).
Proof.
  intros Hn. unfold get_one, get, contains, is_empty. rewrite Hn.
  split; [done|]. split; [done|]. split; [done|]. split.
  - apply bool_decide_eq_false_2. intros ->. by rewrite lookup_empty in Hn.
  - rewrite (len_delete m n [] Hn). simpl. lia.
Qed.

Lemma empty_entry_observable_witness :
  replace_all HeaderMap_new "X-Custom" [] !! "X-Custom" = Some [] /\
  contains (replace_all HeaderMap_new "X-Custom" []) "X-Custom" = true /\
  get_one (replace_all HeaderMap_new "X-Custom" []) "X-Custom" = None.
Proof.
  split; [reflexivity|].
  destruct (empty_entry_observable (replace_all HeaderMap_new "X-Custom" [])
              "X-Custom" eq_refl) as (H1 & _ & H3 & _).
  split; assumption.
Defined.

(** ** Further operations of [HeaderMap] *)

Section Iteration.

Variable iter_order : HeaderMap -> list (string * list string).

(** [HeaderMap::iter(&self)]: [self.headers.iter().flat_map(|(key, values)|
    values.iter().map(move |val| Header::new(key, val)))]; the map is
    only borrowed. *)
Definition iter (m : HeaderMap) : list Header :=
  into_iter_entries (iter_order m).

(** [HeaderMap::into_iter_raw(self)]: [self.headers.into_iter()]. *)
Definition into_iter_raw (m : HeaderMap) : list (string * list string) :=
  iter_order m.

End Iteration.

(** Rebuilding a map by adding every header of a sequence, in order, as
    the caller of [remove_all] in its documentation does. *)
Definition add_each (m : HeaderMap) (hs : list Header) : HeaderMap :=
  fold_left add hs m.

(** Rebuilding a map from raw entries with [replace_all]. *)
Definition replace_all_each (m : HeaderMap) (l : list (string * list string))
  : HeaderMap :=
  fold_left (fun acc e => replace_all acc e.1 e.2) l m.

Lemma add_raw_seq_insert (m : HeaderMap) (n : string) (vs : list string) :
  vs <> [] -> add_raw_seq m n vs = <[n := app (get m n) vs]> m.
Proof.
  unfold add_raw_seq. revert m.
  induction vs as [|v vs IH]; intros m Hvs; [done|]. simpl.
  destruct vs as [|w ws].
  - simpl. unfold add_raw, add, get; simpl. done.
  - rewrite IH by done. unfold add_raw at 1. unfold add at 1; simpl.
    unfold get at 1. unfold add_raw, add; simpl.
    rewrite lookup_insert_eq, insert_insert_eq. unfold get.
    by rewrite <- app_assoc.
Qed.

Lemma add_each_block (m : HeaderMap) (k : string) (vs : list string) :
  add_each m (map (fun v => {| name := k; value := v |}) vs)
  = add_raw_seq m k vs.
Proof.
  unfold add_each, add_raw_seq. revert m.
  induction vs as [|v vs IH]; intros m; simpl; [done|]. apply IH.
Qed.

Lemma fold_replace_all_lookup (l : list (string * list string))
    (m0 : HeaderMap) (n : string) :
  NoDup l.*1 ->
  (forall vs, (n, vs) ∈ l -> replace_all_each m0 l !! n = Some vs) /\
  (n ∉ l.*1 -> replace_all_each m0 l !! n = m0 !! n).
Proof.
  unfold replace_all_each, replace_all.
  revert m0. induction l as [|[k ws] l IH]; intros m0 Hnd; simpl.
  - split; [intros vs Hin; by apply elem_of_nil in Hin | done].
  - apply NoDup_cons in Hnd as [Hk Hnd]. simpl in Hk.
    destruct (IH (<[k:=ws]> m0) Hnd) as [IH1 IH2]. split.
    + intros vs Hin. apply elem_of_cons in Hin as [Heq | Hin].
      * injection Heq as -> ->. rewrite IH2 by done.
        by rewrite lookup_insert_eq.
      * by apply IH1.
    + intros Hn. rewrite elem_of_cons in Hn. rewrite IH2 by tauto.
      rewrite lookup_insert_ne; [done|]. intros ->. tauto.
Qed.

Lemma replace_all_each_perm (m : HeaderMap) (l : list (string * list string)) :
  l ≡ₚ map_to_list m -> replace_all_each HeaderMap_new l = m.
Proof.
  intros Hp. assert (Hnd : NoDup l.*1).
  { rewrite Hp. apply NoDup_fst_map_to_list. }
  apply map_eq. intros n.
  destruct (fold_replace_all_lookup l HeaderMap_new n Hnd) as [H1 H2].
  destruct (m !! n) as [vs|] eqn:Hn.
  - apply H1. rewrite Hp. by apply elem_of_map_to_list.
  - rewrite H2; [done|]. intros Hin. apply list_elem_of_fmap in Hin
      as ([k vs] & Hk & Hin). simpl in Hk. subst k.
    rewrite Hp, elem_of_map_to_list in Hin. congruence.
Qed.

Lemma add_each_entries (l : list (string * list string)) (m0 : HeaderMap) :
  NoDup l.*1 -> Forall (fun e => e.2 <> []) l ->
  (forall k, k ∈ l.*1 -> m0 !! k = None) ->
  add_each m0 (into_iter_entries l) = replace_all_each m0 l.
Proof.
  revert m0. induction l as [|[k vs] l IH]; intros m0 Hnd Hne Hfresh;
    [done|].
  apply NoDup_cons in Hnd as [Hk Hnd]. apply Forall_cons in Hne as [Hvs Hne].
  simpl in *. unfold into_iter_entries; simpl.
  unfold add_each. rewrite fold_left_app.
  fold (add_each m0 (map (fun v => {| name := k; value := v |}) vs)).
  rewrite add_each_block, add_raw_seq_insert by done.
  unfold get. rewrite (Hfresh k) by (apply elem_of_cons; by left). simpl.
  apply IH; [done|done|].
  intros k' Hk'. unfold replace_all.
  rewrite lookup_insert_ne by (intros ->; contradiction).
  apply Hfresh. apply elem_of_cons. by right.
Qed.

Lemma into_iter_entries_elem (l : list (string * list string)) (h : Header) :
  h ∈ into_iter_entries l <-> exists vs, (name h, vs) ∈ l /\ value h ∈ vs.
Proof.
  unfold into_iter_entries. rewrite list_elem_of_In, in_concat. split.
  - intros (hs & Hhs & Hh). apply in_map_iff in Hhs as ([k vs] & <- & Hkv).
    apply in_map_iff in Hh as (v & <- & Hv). simpl.
    exists vs. split; by apply list_elem_of_In.
  - intros (vs & Hkv & Hv). destruct h as [k v]; simpl in *.
    exists (map (fun v => {| name := k; value := v |}) vs). split.
    + apply in_map_iff. exists (k, vs). split; [done|].
      by apply list_elem_of_In.
    + apply in_map_iff. exists v. split; [done|]. by apply list_elem_of_In.
Qed.

Lemma add_each_contains (m0 : HeaderMap) (hs : list Header) (n : string) :
  contains (add_each m0 hs) n = true ->
  contains m0 n = true \/ exists h, h ∈ hs /\ name h = n.
Proof.
  unfold add_each. revert m0. induction hs as [|h hs IH]; intros m0 Hc;
    simpl in *; [by left|].
  destruct (IH _ Hc) as [Hc' | (h' & Hin & Hn)].
  - unfold contains, add in Hc'. rewrite lookup_insert in Hc'.
    case_decide as Hh.
    + right. exists h. split; [apply elem_of_cons; by left | done].
    + by left.
  - right. exists h'. split; [apply elem_of_cons; by right | done].
Qed.

(** ** Further properties *)

(** Adding back, one by one, the headers [remove_all] returned rebuilds
    the original map, provided it held no name with an empty vector. *)
Theorem remove_all_add_roundtrip
    (iter_order : HeaderMap -> list (string * list string))
    (Hperm : forall m, iter_order m ≡ₚ map_to_list m)
    (m : HeaderMap) :
  (forall n vs, m !! n = Some vs -> vs <> []) ->
  add_each HeaderMap_new (remove_all iter_order m).1 = m.
Proof.
  intros Hne. simpl. unfold into_iter.
  assert (Hnd : NoDup (iter_order m).*1).
  { rewrite Hperm. apply NoDup_fst_map_to_list. }
  rewrite add_each_entries; [by apply replace_all_each_perm | done | |].
  - apply Forall_forall. intros [k vs] Hin. apply (Hne k).
    rewrite Hperm, elem_of_map_to_list in Hin. done.
  - intros k _. apply lookup_empty.
Qed.

Lemma remove_all_add_roundtrip_witness :
  let m := add_raw (add_raw (add_raw HeaderMap_new "X-Custom" "value_1")
                            "X-Other" "other") "X-Custom" "value_2" in
  (forall m' : HeaderMap, map_to_list m' ≡ₚ map_to_list m') /\
  (forall n vs, m !! n = Some vs -> vs <> []) /\
  add_each HeaderMap_new (remove_all map_to_list m).1 = m.
Proof.
  intros m.
  assert (Hne : forall n vs, m !! n = Some vs -> vs <> []).
  { intros n vs. unfold m, add_raw, add, Header_new; simpl.
    rewrite !lookup_insert. repeat case_decide; subst; try discriminate;
      try (intros Hs; injection Hs as <-; discriminate).
    all: by rewrite ?lookup_empty. }
  split; [intros m'; reflexivity|]. split; [exact Hne|].
  apply (remove_all_add_roundtrip map_to_list (fun m' => reflexivity _) m Hne).
Defined.

(** The drain loses a name stored with an empty vector: rebuilding from
    the headers [remove_all] returned does not contain it. *)
Theorem remove_all_drops_empty
    (iter_order : HeaderMap -> list (string * list string))
    (Hperm : forall m, iter_order m ≡ₚ map_to_list m)
    (m : HeaderMap) (n : string) :
  m !! n = Some [] ->
  contains m n = true /\
  contains (add_each HeaderMap_new (remove_all iter_order m).1) n = false.
Proof.
  intros Hn. split; [unfold contains; by rewrite Hn|].
  destruct (contains (add_each HeaderMap_new (remove_all iter_order m).1) n)
    eqn:Hc; [|done].
  destruct (add_each_contains _ _ _ Hc) as [Hc0 | (h & Hin & <-)];
    [discriminate|].
  simpl in Hin. unfold into_iter in Hin.
  apply into_iter_entries_elem in Hin as (vs & Hkv & Hv).
  rewrite Hperm, elem_of_map_to_list, Hn in Hkv. injection Hkv as <-.
  by apply elem_of_nil in Hv.
Qed.

Lemma remove_all_drops_empty_witness :
  contains (add_each HeaderMap_new
    (remove_all map_to_list (replace_all HeaderMap_new "X-Custom" [])).1)
    "X-Custom" = false.
Proof.
  apply (remove_all_drops_empty map_to_list (fun m' => reflexivity _)
           (replace_all HeaderMap_new "X-Custom" []) "X-Custom").
  reflexivity.
Defined.

(** Draining with [into_iter_raw] and reinstalling every entry with
    [replace_all] rebuilds the map exactly, empty vectors included. *)
Theorem into_iter_raw_roundtrip
    (iter_order : HeaderMap -> list (string * list string))
    (Hperm : forall m, iter_order m ≡ₚ map_to_list m)
    (m : HeaderMap) :
  replace_all_each HeaderMap_new (into_iter_raw iter_order m) = m.
Proof. apply replace_all_each_perm, Hperm. Qed.

Lemma into_iter_raw_roundtrip_witness :
  replace_all_each HeaderMap_new
    (into_iter_raw map_to_list (replace_all HeaderMap_new "X-Custom" []))
  = replace_all HeaderMap_new "X-Custom" [].
Proof.
  apply (into_iter_raw_roundtrip map_to_list (fun m' => reflexivity _)).
Defined.

(** [iter] yields exactly [len] headers, and a header [(n, v)] is yielded
    iff [v] is one of the values [get] returns for [n]. *)
Theorem iter_len_mem
    (iter_order : HeaderMap -> list (string * list string))
    (Hperm : forall m, iter_order m ≡ₚ map_to_list m)
    (m : HeaderMap) :
  length (iter iter_order m) = len m /\
  (forall h, h ∈ iter iter_order m <-> value h ∈ get m (name h)).
Proof.
  split.
  - unfold iter, into_iter_entries, len.
    rewrite <- (concat_length_perm _ _ (Permutation_map snd (Hperm m))).
    induction (iter_order m) as [|[k vs] l IH]; simpl; [done|].
    rewrite !length_app, length_map. lia.
  - intros h. unfold iter. rewrite into_iter_entries_elem. unfold get.
    split.
    + intros (vs & Hkv & Hv). rewrite Hperm, elem_of_map_to_list in Hkv.
      by rewrite Hkv.
    + destruct (m !! name h) as [vs|] eqn:Hn; intros Hv;
        [|by apply elem_of_nil in Hv].
      exists vs. split; [|done]. rewrite Hperm. by apply elem_of_map_to_list.
Qed.

Lemma iter_len_mem_witness :
  length (iter map_to_list
    (add_raw (add_raw HeaderMap_new "X-Custom" "value_1")
             "X-Custom" "value_2")) = 2.
Proof.
  rewrite (proj1 (iter_len_mem map_to_list (fun m' => reflexivity _) _)).
  reflexivity.
Defined.

(** [replace(h)] is [remove(h.name)] followed by [add(h)]. *)
Theorem replace_is_remove_then_add (m : HeaderMap) (h : Header) :
  (replace m h).1 = add (remove m (name h)) h.
Proof.
  unfold replace, add, remove; simpl.
  by rewrite lookup_delete_eq, insert_delete_eq.
Qed.

(** [add_all] is a run of [add_raw] calls when the vector is non-empty or
    the name is already present; with an empty vector on an absent name
    it instead stores the name with no values, which a run of no
    [add_raw] calls does not. *)
Theorem add_all_as_add_raw_seq (m : HeaderMap) (n : string)
    (vs : list string) :
  ((vs <> [] \/ contains m n = true) ->
   (add_all m n vs).1 = add_raw_seq m n vs) /\
  (contains m n = false ->
   (add_all m n []).1 = replace_all m n [] /\
   contains (add_all m n []).1 n = true /\
   get (add_all m n []).1 n = [] /\
   (add_all m n []).1 <> add_raw_seq m n []).
Proof.
  split.
  - intros [Hvs | Hc].
    + rewrite add_raw_seq_insert by done. reflexivity.
    + destruct vs as [|v vs].
      * unfold add_all, add_raw_seq, contains in *; simpl.
        destruct (m !! n) as [ws|] eqn:Hn; [|discriminate].
        rewrite app_nil_r. by apply insert_id.
      * rewrite add_raw_seq_insert by done. reflexivity.
  - unfold contains, add_all, replace_all, get, add_raw_seq; simpl.
    destruct (m !! n) as [ws|] eqn:Hn; [discriminate|]. intros _.
    rewrite lookup_insert_eq. split; [done|]. split; [done|].
    split; [done|]. intros Heq.
    apply (f_equal (fun m' : HeaderMap => m' !! n)) in Heq.
    rewrite lookup_insert_eq, Hn in Heq. discriminate.
Qed.

Lemma add_all_as_add_raw_seq_witness :
  (add_all HeaderMap_new "X-Custom" ["value_1"; "value_2"]).1
  = add_raw_seq HeaderMap_new "X-Custom" ["value_1"; "value_2"] /\
  (add_all HeaderMap_new "X-Custom" []).1 <> add_raw_seq HeaderMap_new "X-Custom" [].
Proof.
  split.
  - apply (proj1 (add_all_as_add_raw_seq HeaderMap_new "X-Custom"
                    ["value_1"; "value_2"])).
    left. discriminate.
  - apply (proj2 (add_all_as_add_raw_seq HeaderMap_new "X-Custom" [])).
    reflexivity.
Defined.

(** Every mutator on a name leaves the entry of every other name as it
    was. *)
Theorem mutators_frame (m : HeaderMap) (n n' : string) (v : string)
    (vs : list string) :
  n' <> n ->
  add_raw m n v !! n' = m !! n' /\
  (replace_raw m n v).1 !! n' = m !! n' /\
  replace_all m n vs !! n' = m !! n' /\
  (add_all m n vs).1 !! n' = m !! n' /\
  remove m n !! n' = m !! n'.
Proof.
  intros Hne. unfold add_raw, add, replace_raw, replace, replace_all,
    add_all, remove, Header_new; simpl.
  rewrite !lookup_insert_ne, lookup_delete_ne by congruence.
  repeat split.
Qed.

Lemma mutators_frame_witness :
  add_raw (add_raw HeaderMap_new "X-Other" "other") "X-Custom" "v"
    !! "X-Other" = Some ["other"].
Proof.
  rewrite (proj1 (mutators_frame (add_raw HeaderMap_new "X-Other" "other")
                    "X-Custom" "X-Other" "v" [] ltac:(discriminate))).
  reflexivity.
Defined.

(** How each mutator changes [len]: [replace] and [replace_all] drop the
    name's old values and count the new ones, [add_all] adds the length
    of the vector, [remove] drops the name's values. *)
Theorem len_after_mutators (m : HeaderMap) (h : Header) (n : string)
    (vs : list string) :
  len (replace m h).1 + length (get m (name h)) = len m + 1 /\
  len (replace_all m n vs) + length (get m n) = len m + length vs /\
  len (add_all m n vs).1 = len m + length vs /\
  len (remove m n) + length (get m n) = len m.
Proof.
  assert (Hins : forall (m0 : HeaderMap) k ws,
             len (<[k := ws]> m0) + length (get m0 k) = len m0 + length ws).
  { intros m0 k ws.
    rewrite (len_delete_get (<[k:=ws]> m0) k), (len_delete_get m0 k).
    unfold get at 1. rewrite delete_insert_eq, lookup_insert_eq. lia. }
  split; [|split; [|split]].
  - unfold replace; simpl. rewrite Hins. simpl. lia.
  - apply Hins.
  - unfold add_all; simpl.
    pose proof (Hins m n (app (get m n) vs)) as H.
    rewrite length_app in H. unfold get in H. lia.
  - unfold remove. rewrite (len_delete_get m n). lia.
Qed.

(** Helper: the non-empty-vector invariant of [reachable_ne] maps. *)
Lemma reachable_ne_nonempty (m : HeaderMap) :
  reachable_ne m -> forall n, contains m n = true -> get m n <> [].
Proof.
  intros Hr. induction Hr as [| m h _ IH | m n0 v _ IH | m n0 vs Hvs _ IH
    | m h _ IH | m n0 v _ IH | m n0 vs Hvs _ IH | m n0 _ IH | m _ IH];
    intros n; unfold contains, get in *; simpl;
    unfold add_raw, add, add_all, replace_raw, replace, replace_all, remove,
      HeaderMap_new, Header_new in *; simpl.
  - by rewrite lookup_empty.
  - rewrite lookup_insert. case_decide; [|apply IH].
    intros _ Happ. apply app_eq_nil in Happ as [_ Hc]. discriminate.
  - rewrite lookup_insert. case_decide; [|apply IH].
    intros _ Happ. apply app_eq_nil in Happ as [_ Hc]. discriminate.
  - rewrite lookup_insert. case_decide; [|apply IH].
    intros _ Happ. apply app_eq_nil in Happ as [_ ->]. done.
  - rewrite lookup_insert. case_decide; [done|apply IH].
  - rewrite lookup_insert. case_decide; [done|apply IH].
  - rewrite lookup_insert. case_decide; [done|apply IH].
  - rewrite lookup_delete. case_decide; [done|apply IH].
  - by rewrite lookup_empty.
Qed.

(** [is_empty()] implies [len() == 0]; the converse holds on maps built
    without empty vectors, and fails on a map that [replace_all] gave an
    empty vector. *)
Theorem is_empty_len (m : HeaderMap) :
  reachable_ne m ->
  (is_empty m = true <-> len m = 0) /\
  (exists m', reachable m' /\ len m' = 0 /\ is_empty m' = false).
Proof.
  intros Hr. split.
  - unfold is_empty. rewrite bool_decide_eq_true. split.
    + intros ->. reflexivity.
    + intros H0. apply map_eq. intros n. rewrite lookup_empty.
      destruct (m !! n) as [vs|] eqn:Hn; [|done]. exfalso.
      pose proof (len_delete m n vs Hn) as Hl.
      apply (reachable_ne_nonempty m Hr n);
        unfold contains, get; rewrite Hn; [done|].
      destruct vs; [done|]. simpl in Hl. lia.
  - exists (replace_all HeaderMap_new "X-Custom" []).
    split; [apply reach_replace_all, reach_new|]. split; reflexivity.
Qed.

Lemma is_empty_len_witness :
  reachable_ne (add_raw HeaderMap_new "X-Custom" "value_1") /\
  (is_empty (add_raw HeaderMap_new "X-Custom" "value_1") = true <->
   len (add_raw HeaderMap_new "X-Custom" "value_1") = 0).
Proof.
  split; [exact (reachn_add_raw _ _ _ reachn_new)|].
  exact (proj1 (is_empty_len (add_raw HeaderMap_new "X-Custom" "value_1")
                  (reachn_add_raw _ _ _ reachn_new))).
Defined.

(** [get_one] is the first value [get] yields; a missing name gives an
    empty [get] and no [get_one]. *)
Theorem get_one_first_of_get (m : HeaderMap) (n : string) :
  get_one m n = head (get m n) /\
  (contains m n = false -> get m n = [] /\ get_one m n = None).
Proof.
  unfold get_one, get, contains.
  destruct (m !! n) as [[|v vs]|]; split; done.
Qed.

Lemma get_one_first_of_get_witness :
  get_one HeaderMap_new "X-Other" = None.
Proof.
  apply (get_one_first_of_get HeaderMap_new "X-Other"). reflexivity.
Defined.

(** [add]s on different names commute: the order between distinct names
    is not recorded. *)
Theorem add_comm_distinct (m : HeaderMap) (h1 h2 : Header) :
  name h1 <> name h2 -> add (add m h1) h2 = add (add m h2) h1.
Proof.
  intros Hne. unfold add.
  rewrite !lookup_insert_ne by congruence.
  apply insert_insert_ne. congruence.
Qed.

Lemma add_comm_distinct_witness :
  add (add HeaderMap_new (Header_new "A" "1")) (Header_new "B" "2")
  = add (add HeaderMap_new (Header_new "B" "2")) (Header_new "A" "1").
Proof. apply add_comm_distinct. discriminate. Defined.

(** Adding a value under an absent name and then removing that name gives
    back the original map; on a present name [remove] drops every value,
    earlier ones included. *)
Theorem remove_undoes_fresh_add (m : HeaderMap) (n v : string) :
  (contains m n = false -> remove (add_raw m n v) n = m) /\
  remove (add_raw m n v) n = remove m n.
Proof.
  unfold remove, add_raw, add, contains, Header_new; simpl.
  rewrite delete_insert_eq. split; [|done].
  destruct (m !! n) eqn:Hn; [discriminate|]. intros _.
  by apply delete_id.
Qed.

Lemma remove_undoes_fresh_add_witness :
  remove (add_raw (add_raw HeaderMap_new "X-Other" "o") "X-Custom" "v")
    "X-Custom" = add_raw HeaderMap_new "X-Other" "o".
Proof.
  apply (proj1 (remove_undoes_fresh_add _ "X-Custom" "v")). reflexivity.
Defined.

(** Replacing twice with the same header changes nothing the second time,
    and the second call reports the name as present. *)
Theorem replace_idempotent (m : HeaderMap) (h : Header) :
  (replace (replace m h).1 h).1 = (replace m h).1 /\
  (replace (replace m h).1 h).2 = true.
Proof.
  unfold replace; simpl. rewrite insert_insert_eq, lookup_insert_eq.
  done.
Qed.

(** ** C5 and C1 *)

(** C5 fails as stated: a name stored with an empty vector yields no
    header, so regrouping the output of [remove_all] by name (adding the
    headers back into a new map) does not give back the map. *)
Lemma remove_all_drains_counterexample :
  ~ (forall iter_order : HeaderMap -> list (string * list string),
       (forall m, iter_order m ≡ₚ map_to_list m) ->
       forall m, add_each HeaderMap_new (remove_all iter_order m).1 = m).
Proof.
  intros H.
  pose proof (H map_to_list (fun m => reflexivity _)
                (replace_all HeaderMap_new "X-Custom" [])) as Hm.
  assert (Hl : add_each HeaderMap_new
                 (remove_all map_to_list
                    (replace_all HeaderMap_new "X-Custom" [])).1
                 !! "X-Custom"
               = replace_all HeaderMap_new "X-Custom" [] !! "X-Custom")
    by (by rewrite Hm).
  vm_compute in Hl. discriminate.
Qed.

(** C5, as the code does it: whatever order the [HashMap] yields its
    entries in, the headers returned by [remove_all()] hold, for every
    name, exactly that name's values as one contiguous block in FIFO
    order, with no header of that name outside the block; regrouped by
    name they give each name's stored values; every returned header's
    name has at least one value in the map (a name stored with an empty
    vector yields nothing); and the map left behind is empty. *)
Theorem remove_all_drains
    (iter_order : HeaderMap -> list (string * list string))
    (Hperm : forall m, iter_order m ≡ₚ map_to_list m)
    (m : HeaderMap) :
  (forall n, exists pre post,
      (remove_all iter_order m).1
        = app pre (app (map (fun v => {| name := n; value := v |}) (get m n))
                       post) /\
      (forall h, h ∈ app pre post -> name h <> n)) /\
  (forall n, values_named n (remove_all iter_order m).1 = get m n) /\
  (forall h, h ∈ (remove_all iter_order m).1 -> get m (name h) <> []) /\
  is_empty (remove_all iter_order m).2 = true.
Proof.
  assert (Hnd : NoDup (iter_order m).*1).
  { rewrite Hperm. apply NoDup_fst_map_to_list. }
  assert (Hin_l : forall k vs, (k, vs) ∈ iter_order m <-> m !! k = Some vs).
  { intros k vs. by rewrite Hperm, elem_of_map_to_list. }
  simpl. unfold into_iter. split; [|split; [|split]].
  - intros n. unfold get. destruct (m !! n) as [vs|] eqn:Hn.
    + apply Hin_l, list_elem_of_split in Hn as (l1 & l2 & Hl).
      rewrite Hl in Hnd |- *.
      exists (into_iter_entries l1), (into_iter_entries l2). split.
      * unfold into_iter_entries. rewrite map_app, concat_app. done.
      * rewrite fmap_app in Hnd. simpl in Hnd.
        apply NoDup_app in Hnd as (_ & Hdisj & Hnd2).
        apply NoDup_cons in Hnd2 as [Hn2 _].
        assert (Hn1 : n ∉ l1.*1)
          by (intros Hn1; apply (Hdisj n Hn1), elem_of_cons; by left).
        intros h Hh Hname. rewrite elem_of_app in Hh.
        destruct Hh as [Hh | Hh]; apply into_iter_entries_elem in Hh
          as (ws & Hw & _); rewrite Hname in Hw.
        -- apply Hn1, list_elem_of_fmap. by exists (n, ws).
        -- apply Hn2, list_elem_of_fmap. by exists (n, ws).
    + exists (into_iter_entries (iter_order m)), []. split.
      * simpl. by rewrite !app_nil_r.
      * intros h Hh Hname. rewrite app_nil_r in Hh.
        apply into_iter_entries_elem in Hh as (ws & Hw & _).
        rewrite Hname, Hin_l in Hw. congruence.
  - intros n. apply values_named_perm, Hperm.
  - intros h Hh. apply into_iter_entries_elem in Hh as (ws & Hw & Hv).
    apply Hin_l in Hw. unfold get. rewrite Hw. intros ->.
    by apply elem_of_nil in Hv.
  - reflexivity.
Qed.

Lemma remove_all_drains_witness :
  (forall m : HeaderMap, map_to_list m ≡ₚ map_to_list m) /\
  values_named "X-Custom"
    (remove_all map_to_list
       (add_raw (add_raw (add_raw HeaderMap_new "X-Custom" "value_1")
                         "X-Other" "other") "X-Custom" "value_2")).1
    = ["value_1"; "value_2"].
Proof.
  split; [intros m; reflexivity|].
  destruct (remove_all_drains map_to_list (fun m => reflexivity _)
     (add_raw (add_raw (add_raw HeaderMap_new "X-Custom" "value_1")
                       "X-Other" "other") "X-Custom" "value_2"))
    as (_ & H & _).
  rewrite H. reflexivity.
Defined.

(** C1 fails: [replace_all] with an empty vector stores a present name
    with no value. *)
Lemma nonempty_invariant_counterexample :
  ~ (forall m, reachable m -> forall n, contains m n = true -> get m n <> []).
Proof.
  intros Hinv.
  apply (Hinv (replace_all HeaderMap_new "X-Custom" [])
              (reach_replace_all _ _ _ reach_new) "X-Custom");
    reflexivity.
Qed.

(** C1, as the code does it: every name present in a map reached from
    [HeaderMap::new()] by the mutators, with [add_all] and [replace_all]
    only given non-empty vectors, has a non-empty value list; on any map,
    [replace_all] with an empty vector stores the name with no values, and
    so does [add_all] with an empty vector on an absent name. *)
Theorem nonempty_invariant_ne :
  (forall m : HeaderMap,
      reachable_ne m -> forall n, contains m n = true -> get m n <> []) /\
  (forall (m : HeaderMap) (n : string),
      contains (replace_all m n []) n = true /\
      get (replace_all m n []) n = []) /\
  (forall (m : HeaderMap) (n : string),
      contains m n = false ->
      contains (add_all m n []).1 n = true /\
      get (add_all m n []).1 n = []).
Proof.
  split; [exact reachable_ne_nonempty|]. split.
  - intros m n. unfold contains, get, replace_all.
    by rewrite lookup_insert_eq.
  - intros m n. unfold contains, get, add_all; simpl.
    destruct (m !! n); [discriminate|]. intros _.
    by rewrite lookup_insert_eq.
Qed.

Lemma nonempty_invariant_ne_witness :
  reachable_ne (add_raw HeaderMap_new "X-Custom" "value_1") /\
  get (add_raw HeaderMap_new "X-Custom" "value_1") "X-Custom" <> [] /\
  get (add_all HeaderMap_new "X-Custom" []).1 "X-Custom" = [].
Proof.
  split; [exact (reachn_add_raw _ _ _ reachn_new)|]. split.
  - apply (proj1 nonempty_invariant_ne
             (add_raw HeaderMap_new "X-Custom" "value_1")
             (reachn_add_raw _ _ _ reachn_new) "X-Custom").
    reflexivity.
  - apply (proj2 (proj2 nonempty_invariant_ne) HeaderMap_new "X-Custom").
    reflexivity.
Defined.
